(** * MaybeDone: a future that may have completed

    Shallow embedding of [futures-util/src/future/maybe_done.rs].

    The inner future [Fut] is opaque: its [poll] is a state-passing function
    [fut_poll : Fut -> LocalWaker -> Poll Output * Fut] that, given the
    future pinned in place and a waker, returns its poll result together with
    the future as it is left behind by the call (the call mutates it through
    the pinned reference).

    Every operation of [MaybeDone] that takes [Pin<&mut Self>] is modelled as
    a function from the current state to an [Outcome]: either it returns a
    value together with the state it leaves behind, or it panics. *)

From Stdlib Require Import List String Arith Lia.
Import ListNotations.

(** [core::task::Poll] *)
Inductive Poll (T : Type) : Type :=
| Ready (t : T)
| Pending.
Arguments Ready {T} t.
Arguments Pending {T}.

(** Result of calling a method on [Pin<&mut MaybeDone<Fut>>]: it either
    returns normally, leaving the wrapper in state [s], or it panics. *)
Inductive Outcome (S R : Type) : Type :=
| Returns (r : R) (s : S)
| Panics (msg : string).
Arguments Returns {S R} r s.
Arguments Panics {S R} msg.

Section MaybeDoneDef.

Variable Fut : Type.
Variable Output : Type.
Variable LocalWaker : Type.
(** [<Fut as Future>::poll], in place. *)
Variable fut_poll : Fut -> LocalWaker -> Poll Output * Fut.

(** [pub enum MaybeDone<Fut: Future>] *)
Inductive MaybeDone : Type :=
| Future (f : Fut)
| Done (o : Output)
| Gone.

(** [pub fn maybe_done(future: Fut) -> MaybeDone<Fut>] *)
Definition maybe_done (future : Fut) : MaybeDone := Future future.

(** A [&'a mut Fut::Output] pointing into a [Done] payload: the value it
    reads, and the wrapper as it stands after writing through it. *)
Record MutRef : Type := {
  deref : Output;
  write : Output -> MaybeDone
}.

(** [core::mem::replace(dest, src)]: returns the old value, leaves [src]. *)
Definition mem_replace (dest src : MaybeDone) : MaybeDone * MaybeDone :=
  (dest, src).

(** [MaybeDone::output_mut] *)
Definition output_mut (this : MaybeDone) : Outcome MaybeDone (option MutRef) :=
  match this with
  | Done res => Returns (Some {| deref := res; write := fun x => Done x |}) this
  | _ => Returns None this
  end.

(** [MaybeDone::take_output] *)
Definition take_output (this : MaybeDone) : Outcome MaybeDone (option Output) :=
  match this with
  | Done _ =>
      let (old, this') := mem_replace this Gone in
      match old with
      | Done output => Returns (Some output) this'
      | _ => Panics "internal error: entered unreachable code"%string
      end
  | Future _ | Gone => Returns None this
  end.

(** [<MaybeDone<Fut> as FusedFuture>::is_terminated] (takes [&self]) *)
Definition is_terminated (this : MaybeDone) : bool :=
  match this with
  | Future _ => false
  | Done _ | Gone => true
  end.

(** [<MaybeDone<Fut> as Future>::poll]; [Self::Output = ()].
    On inner completion the inner future is dropped and
    [Pin::set(self, MaybeDone::Done(res))] overwrites the state. *)
Definition poll (this : MaybeDone) (lw : LocalWaker) : Outcome MaybeDone (Poll unit) :=
  match this with
  | Future a =>
      match fut_poll a lw with
      | (Ready res, _) => Returns (Ready tt) (Done res)
      | (Pending, a') => Returns Pending (Future a')
      end
  | Done _ => Returns (Ready tt) this
  | Gone => Panics "MaybeDone polled after value taken"%string
  end.

(** Driving a wrapper: a sequence of calls to its public operations. *)
Inductive Op : Type :=
| OpPoll (lw : LocalWaker)
| OpTakeOutput
| OpOutputMut
| OpIsTerminated.

(** What a call returned ([OpOutputMut] records the referent of the
    returned reference). *)
Inductive Ret : Type :=
| RPoll (p : Poll unit)
| RTakeOutput (o : option Output)
| ROutputMut (o : option Output)
| RIsTerminated (b : bool).

Definition step (op : Op) (this : MaybeDone) : Outcome MaybeDone Ret :=
  match op with
  | OpPoll lw =>
      match poll this lw with
      | Returns p s => Returns (RPoll p) s
      | Panics m => Panics m
      end
  | OpTakeOutput =>
      match take_output this with
      | Returns o s => Returns (RTakeOutput o) s
      | Panics m => Panics m
      end
  | OpOutputMut =>
      match output_mut this with
      | Returns o s => Returns (ROutputMut (option_map deref o)) s
      | Panics m => Panics m
      end
  | OpIsTerminated => Returns (RIsTerminated (is_terminated this)) this
  end.

(** One executed call: state before, returned value, state after. *)
Record Event : Type := {
  ev_pre : MaybeDone;
  ev_ret : Ret;
  ev_post : MaybeDone
}.

(** Run a sequence of calls; the trace stops at a panic, whose message is
    returned as the second component. *)
Fixpoint run (this : MaybeDone) (ops : list Op) : list Event * option string :=
  match ops with
  | [] => ([], None)
  | op :: rest =>
      match step op this with
      | Returns r s =>
          let (tr, e) := run s rest in
          ({| ev_pre := this; ev_ret := r; ev_post := s |} :: tr, e)
      | Panics m => ([], Some m)
      end
  end.

(** Polls of the bare inner future along a list of wakers, stopping after
    the first [Ready] (a completed future is not polled again). *)
Fixpoint inner_polls (f : Fut) (lws : list LocalWaker) : list (Poll Output) :=
  match lws with
  | [] => []
  | lw :: rest =>
      match fut_poll f lw with
      | (Ready v, _) => [Ready v]
      | (Pending, f') => Pending :: inner_polls f' rest
      end
  end.

Definition is_take (op : Op) : bool :=
  match op with OpTakeOutput => true | _ => false end.

Definition take_some (r : Ret) : bool :=
  match r with RTakeOutput (Some _) => true | _ => false end.

Definition done_value (s : MaybeDone) : option Output :=
  match s with Done v => Some v | _ => None end.

End MaybeDoneDef.

Arguments Future {Fut Output} f.
Arguments Done {Fut Output} o.
Arguments Gone {Fut Output}.
Arguments OpPoll {LocalWaker} lw.
Arguments OpTakeOutput {LocalWaker}.
Arguments OpOutputMut {LocalWaker}.
Arguments OpIsTerminated {LocalWaker}.
Arguments RPoll {Output} p.
Arguments RTakeOutput {Output} o.
Arguments ROutputMut {Output} o.
Arguments RIsTerminated {Output} b.
Arguments Build_Event {Fut Output} ev_pre ev_ret ev_post.
Arguments Build_MutRef {Fut Output} deref write.
Arguments maybe_done {Fut Output} future.
Arguments output_mut {Fut Output} this.
Arguments take_output {Fut Output} this.
Arguments is_terminated {Fut Output} this.
Arguments mem_replace {Fut Output} dest src.
Arguments poll {Fut Output LocalWaker} fut_poll this lw.
Arguments step {Fut Output LocalWaker} fut_poll op this.
Arguments run {Fut Output LocalWaker} fut_poll this ops.
Arguments inner_polls {Fut Output LocalWaker} fut_poll f lws.
Arguments is_take {LocalWaker} op.
Arguments take_some {Output} r.
Arguments done_value {Fut Output} s.
Arguments deref {Fut Output} m.
Arguments write {Fut Output} m _.
Arguments ev_pre {Fut Output} e.
Arguments ev_ret {Fut Output} e.
Arguments ev_post {Fut Output} e.

(** A concrete inner future used in examples: it returns [Pending] while its
    counter is positive, decrementing it, and [Ready 5] at zero. *)
Definition countdown_poll (n : nat) (_ : unit) : Poll nat * nat :=
  match n with
  | 0 => (Ready 5, 0)
  | S m => (Pending, m)
  end.

(** [Poll::map(|_| ())]: the completion signal of a poll result, as the
    wrapper reports it. *)
Definition erase_poll {T : Type} (p : Poll T) : Poll unit :=
  match p with
  | Ready _ => Ready tt
  | Pending => Pending
  end.

(** Calls that only inspect the wrapper ([output_mut] read through,
    [is_terminated]), and their results. *)
Definition is_query {LocalWaker : Type} (op : Op LocalWaker) : bool :=
  match op with OpOutputMut | OpIsTerminated => true | _ => false end.

Definition is_query_ret {Output : Type} (r : Ret Output) : bool :=
  match r with ROutputMut _ | RIsTerminated _ => true | _ => false end.

Example doc_example :
  let s0 : MaybeDone nat nat := maybe_done 0 in
  take_output s0 = Returns None s0 /\
  poll countdown_poll s0 tt = Returns (Ready tt) (Done 5) /\
  @take_output nat nat (Done 5) = Returns (Some 5) Gone /\
  @take_output nat nat Gone = Returns None Gone.
Proof. repeat split. Qed.

Section MaybeDoneFacts.

Context {Fut Output LocalWaker : Type}.
Variable fut_poll : Fut -> LocalWaker -> Poll Output * Fut.


Definition no_take (ops : list (Op LocalWaker)) : bool :=
  forallb (fun op => negb (is_take op)) ops.

Definition count_take_some (tr : list (Event Fut Output)) : nat :=
  List.length (filter take_some (map ev_ret tr)).

(** Every event of a run is one call of [step]. *)
Lemma run_event_step :
  forall ops (s : MaybeDone Fut Output) e,
    In e (fst (run fut_poll s ops)) ->
    exists op, In op ops /\ step fut_poll op (ev_pre e) = Returns (ev_ret e) (ev_post e).
Proof.
  induction ops as [|op ops IH]; intros s e Hin; simpl in Hin; [contradiction|].
  destruct (step fut_poll op s) as [r s'|m] eqn:Hst; simpl in Hin; [|contradiction].
  destruct (run fut_poll s' ops) as [tr er] eqn:Hrun; simpl in Hin.
  destruct Hin as [<-|Hin].
  - exists op; simpl; auto.
  - specialize (IH s' e); rewrite Hrun in IH; simpl in IH.
    destruct (IH Hin) as [op' [Hop' Hs]]; exists op'; split; [right; exact Hop'|exact Hs].
Qed.

(** A state predicate preserved by every call of the run holds at every
    event of the run. *)
Lemma run_invariant (P : MaybeDone Fut Output -> Prop) :
  forall ops (s : MaybeDone Fut Output),
    (forall op, In op ops -> forall x r y, P x -> step fut_poll op x = Returns r y -> P y) ->
    P s ->
    forall e, In e (fst (run fut_poll s ops)) -> P (ev_pre e) /\ P (ev_post e).
Proof.
  induction ops as [|op ops IH]; intros s Hpres Hs e Hin; simpl in Hin; [contradiction|].
  destruct (step fut_poll op s) as [r s'|m] eqn:Hst; simpl in Hin; [|contradiction].
  assert (Hs' : P s') by (eapply Hpres; [left; reflexivity | exact Hs | exact Hst]).
  destruct (run fut_poll s' ops) as [tr er] eqn:Hrun; simpl in Hin.
  destruct Hin as [<-|Hin]; [simpl; auto|].
  specialize (IH s' (fun o Ho => Hpres o (or_intror Ho)) Hs' e).
  rewrite Hrun in IH; exact (IH Hin).
Qed.

Lemma step_done_no_take :
  forall op (v : Output), is_take op = false ->
    exists r, step fut_poll op (@Done Fut Output v) = Returns r (Done v).
Proof. destruct op; intros v H; simpl in *; try discriminate; eexists; reflexivity. Qed.

Lemma step_gone :
  forall op (r : Ret Output) (y : MaybeDone Fut Output), step fut_poll op Gone = Returns r y -> y = Gone /\ take_some r = false.
Proof. destruct op; simpl; intros r y H; try discriminate; inversion H; auto. Qed.

Lemma step_take_some :
  forall op (x y : MaybeDone Fut Output) r, step fut_poll op x = Returns r y -> take_some r = true -> y = Gone.
Proof.
  destruct op; destruct x as [f|o|]; simpl; intros y r H Ht; try discriminate;
    try (destruct (fut_poll f lw) as [[]]); inversion H; subst; simpl in Ht;
    try discriminate; reflexivity.
Qed.

Lemma run_gone_no_take_some :
  forall ops, count_take_some (fst (run fut_poll Gone ops)) = 0.
Proof.
  induction ops as [|op ops IH]; simpl; [reflexivity|].
  destruct (step fut_poll op Gone) as [r y|m] eqn:Hst; [|reflexivity].
  destruct (step_gone op r y Hst) as [-> Ht].
  destruct (run fut_poll Gone ops) as [tr er] eqn:Hrun.
  unfold count_take_some in *; simpl in *; rewrite Ht; exact IH.
Qed.

Lemma run_count_take_some :
  forall ops (s : MaybeDone Fut Output), count_take_some (fst (run fut_poll s ops)) <= 1.
Proof.
  induction ops as [|op ops IH]; intros s; simpl; [unfold count_take_some; simpl; lia|].
  destruct (step fut_poll op s) as [r y|m] eqn:Hst; simpl; [|unfold count_take_some; simpl; lia].
  specialize (IH y).
  destruct (run fut_poll y ops) as [tr er] eqn:Hrun; unfold count_take_some in *; simpl in *.
  destruct (take_some r) eqn:Ht; [|exact IH].
  rewrite (step_take_some op s y r Hst Ht) in Hrun.
  pose proof (run_gone_no_take_some ops) as H0; rewrite Hrun in H0.
  unfold count_take_some in H0; simpl in *; lia.
Qed.

Lemma run_done_no_take_nth :
  forall pre post (v : Output),
    no_take pre = true ->
    nth_error (map ev_ret (fst (run fut_poll (Done v) (pre ++ OpTakeOutput :: post)))) (List.length pre)
    = Some (RTakeOutput (Some v)).
Proof.
  induction pre as [|op pre IH]; intros post v Hnt; simpl.
  - destruct (run fut_poll Gone post); reflexivity.
  - simpl in Hnt; apply andb_prop in Hnt as [Hop Hnt].
    destruct (step_done_no_take op v) as [r Hr]; [destruct (is_take op); auto; discriminate|].
    rewrite Hr.
    specialize (IH post v Hnt).
    destruct (run fut_poll (Done v) (pre ++ OpTakeOutput :: post)); exact IH.
Qed.

Lemma run_done_polls :
  forall (v : Output) lws,
    run fut_poll (Done v) (map OpPoll lws) =
    (map (fun _ => {| ev_pre := Done v; ev_ret := RPoll (Ready tt); ev_post := Done v |}) lws,
     None).
Proof.
  intros v; induction lws as [|lw lws IH]; simpl; [reflexivity|].
  rewrite IH; reflexivity.
Qed.

Lemma step_output_mut :
  forall op (x y : MaybeDone Fut Output) o,
    step fut_poll op x = Returns (ROutputMut o) y -> o = done_value x /\ y = x.
Proof.
  destruct op; destruct x as [f|v|]; simpl; intros y o H;
    try (destruct (fut_poll f lw) as [[]]); inversion H; subst; auto.
Qed.

Lemma step_is_terminated :
  forall op (x y : MaybeDone Fut Output) r,
    step fut_poll op x = Returns r y -> is_terminated x = true -> is_terminated y = true.
Proof.
  destruct op; destruct x as [f|v|]; simpl; intros y r H Ht; try discriminate Ht;
    inversion H; subst; reflexivity.
Qed.

Lemma step_to_future :
  forall op (x : MaybeDone Fut Output) r f,
    step fut_poll op x = Returns r (Future f) -> exists f0, x = Future f0.
Proof.
  intros op x r f H.
  destruct x as [f0|v|]; [eauto| |];
    pose proof (step_is_terminated op _ _ r H eq_refl) as Ht; discriminate Ht.
Qed.

Lemma no_take_in :
  forall (ops : list (Op LocalWaker)) op, no_take ops = true -> In op ops -> is_take op = false.
Proof.
  intros ops op H Hin; unfold no_take in H; rewrite forallb_forall in H.
  specialize (H op Hin); destruct (is_take op); [discriminate H|reflexivity].
Qed.

End MaybeDoneFacts.

Section MaybeDoneClaims.

Context {Fut Output LocalWaker : Type}.
Variable fut_poll : Fut -> LocalWaker -> Poll Output * Fut.

(** C1: polling a wrapper in state [Future a] whose inner future completes
    with [v] overwrites the state with [Done v] (dropping the inner future)
    and returns [Ready tt], the unit completion signal. *)
Lemma poll_future_ready :
  forall (a a' : Fut) (lw : LocalWaker) (v : Output),
    fut_poll a lw = (Ready v, a') ->
    poll fut_poll (Future a) lw = Returns (Ready tt) (Done v).
Proof. intros a a' lw v H; simpl; rewrite H; reflexivity. Qed.

(** C8: polling a wrapper in state [Future a] whose inner future returns
    [Pending] returns [Pending]; the wrapper stays in variant [Future],
    holding the inner future as its own poll left it. *)
Lemma poll_future_pending :
  forall (a a' : Fut) (lw : LocalWaker),
    fut_poll a lw = (Pending, a') ->
    poll fut_poll (Future a) lw = Returns Pending (@Future Fut Output a').
Proof. intros a a' lw H; simpl; rewrite H; reflexivity. Qed.

(** C4: polling a wrapper in state [Gone] panics with
    "MaybeDone polled after value taken"%string; it returns no [Poll] value. *)
Lemma poll_gone_panics :
  forall lw : LocalWaker,
    poll fut_poll (@Gone Fut Output) lw = Panics "MaybeDone polled after value taken"%string /\
    (forall r s, poll fut_poll (@Gone Fut Output) lw <> Returns r s).
Proof. intros lw; split; [reflexivity|]; intros r s H; discriminate H. Qed.

(** C5: polling a wrapper in state [Done v] any number of times returns
    [Ready tt] every time and leaves the state [Done v] unchanged. *)
Lemma poll_done_idempotent :
  forall (v : Output) (lws : list LocalWaker),
    (forall lw, poll fut_poll (@Done Fut Output v) lw = Returns (Ready tt) (Done v)) /\
    run fut_poll (Done v) (map OpPoll lws) =
    (map (fun _ => {| ev_pre := Done v; ev_ret := RPoll (Ready tt); ev_post := Done v |}) lws,
     None).
Proof.
  intros v lws; split; [reflexivity|].
  apply run_done_polls.
Qed.

(** C6: [is_terminated] is a function of the state alone (the call leaves
    the state unchanged) and is true exactly in [Done _] and [Gone], false
    exactly in [Future _]. *)
Lemma is_terminated_spec :
  forall s : MaybeDone Fut Output,
    (is_terminated s = true <-> (exists v, s = Done v) \/ s = Gone) /\
    (is_terminated s = false <-> exists f, s = Future f) /\
    step fut_poll OpIsTerminated s = Returns (RIsTerminated (is_terminated s)) s.
Proof.
  intros [f|v|]; simpl; (split; [|split]); try reflexivity; split; intros H;
    first [ discriminate H | reflexivity | solve [eauto]
          | destruct H as [[x Hx]|Hx]; discriminate Hx
          | destruct H as [x Hx]; discriminate Hx ].
Qed.

(** C10: [take_output] never reaches its [unreachable!()] branch: after
    the [Done] check, [mem::replace(this, Gone)] yields a [Done] payload, so
    [take_output] panics in no state. *)
Lemma take_output_never_panics :
  (forall v : Output, fst (mem_replace (@Done Fut Output v) Gone) = Done v) /\
  (forall (s : MaybeDone Fut Output) m, take_output s <> Panics m).
Proof.
  split; [reflexivity|].
  intros [f|v|] m H; simpl in H; discriminate H.
Qed.

(** C2: [take_output] in [Done v] returns [Some v] and leaves [Gone]; in
    [Future _] or [Gone] it returns [None] and leaves the state unchanged
    (so it never drives [Future] to [Done]); it never panics; over any run
    of calls, from any state, at most one [take_output] returns [Some]; and
    once the state is [Done v], the first [take_output] call returns
    [Some v], whatever non-taking calls come before it. *)
Lemma take_output_once :
  (forall v : Output, take_output (@Done Fut Output v) = Returns (Some v) Gone) /\
  (forall f : Fut, take_output (@Future Fut Output f) = Returns None (Future f)) /\
  take_output (@Gone Fut Output) = Returns None Gone /\
  (forall (s : MaybeDone Fut Output) m, take_output s <> Panics m) /\
  (forall (s : MaybeDone Fut Output) ops, count_take_some (fst (run fut_poll s ops)) <= 1) /\
  (forall (v : Output) pre post,
     no_take pre = true ->
     nth_error (map ev_ret (fst (run fut_poll (Done v) (pre ++ OpTakeOutput :: post))))
               (List.length pre)
     = Some (RTakeOutput (Some v))).
Proof.
  split; [reflexivity|]. split; [reflexivity|]. split; [reflexivity|].
  split; [intros [f|v|] m H; discriminate H|].
  split; [intros s ops; apply run_count_take_some|].
  intros v pre post H; apply run_done_no_take_nth; exact H.
Qed.

(** C3: if the inner future returns [Pending] on its first [k-1] polls and
    [Ready v] on its [k]-th, then polling [maybe_done f] along any [n >= k]
    wakers panics nowhere, returns [Pending] on the first [k-1] calls and
    [Ready tt] on the [k]-th and every later call; [is_terminated] is false
    initially and after each of the first [k-1] calls, true after the
    [k]-th and every later call. *)
Lemma poll_k_times :
  forall (f : Fut) (lws : list LocalWaker) (k : nat) (v : Output),
    inner_polls fut_poll f (firstn k lws) = repeat Pending (k - 1) ++ [Ready v] ->
    let r := run fut_poll (maybe_done f) (map OpPoll lws) in
    snd r = None /\
    map ev_ret (fst r) =
      repeat (RPoll Pending) (k - 1) ++ repeat (RPoll (Ready tt)) (List.length lws - (k - 1)) /\
    is_terminated (@maybe_done Fut Output f) = false /\
    map (fun e => is_terminated (ev_post e)) (fst r) =
      repeat false (k - 1) ++ repeat true (List.length lws - (k - 1)).
Proof.
  intros f lws k v. revert f lws.
  induction k as [|j IH]; intros f [|lw rest] H; simpl in H.
  1-3: apply (f_equal (@List.length _)) in H; try rewrite length_app in H; simpl in H; lia.
  - unfold maybe_done in *; simpl.
    destruct (fut_poll f lw) as [[v'|] f'] eqn:Hp.
    + (* completion on this poll: j = 0 *)
      destruct j as [|j]; simpl in H; [|inversion H].
      inversion H; subst v'.
      rewrite run_done_polls; simpl.
      rewrite ?map_map, ?Nat.sub_0_r, !map_const; simpl.
      repeat split.
    + destruct j as [|j]; simpl in H; [discriminate H|].
      injection H as H.
      specialize (IH f' rest); simpl in IH; rewrite Nat.sub_0_r in IH |- *.
      destruct (IH H) as [He [Hr [_ Ht]]].
      destruct (run fut_poll (Future f') (map OpPoll rest)) as [tr er]; simpl in *.
      replace (S (List.length rest) - S j) with (List.length rest - j) by lia.
      repeat split; congruence.
Qed.

(** C7: [output_mut] leaves the state unchanged and returns a reference
    exactly in state [Done v], reading [v]; [None] in [Future _] and [Gone].
    Over any run, every [output_mut] call reads [done_value] of the state it
    is made in; from [Done v], until a [take_output] call, every
    [output_mut] call reads [Some v]; from [Gone], every one reads [None]. *)
Lemma output_mut_spec :
  (forall s : MaybeDone Fut Output,
     exists r, output_mut s = Returns r s /\ option_map deref r = done_value s) /\
  (forall f : Fut, output_mut (@Future Fut Output f) = Returns None (Future f)) /\
  (forall (s : MaybeDone Fut Output) ops e o,
     In e (fst (run fut_poll s ops)) -> ev_ret e = ROutputMut o ->
     o = done_value (ev_pre e) /\ ev_post e = ev_pre e) /\
  (forall (v : Output) pre e o,
     no_take pre = true -> In e (fst (run fut_poll (Done v) pre)) ->
     ev_ret e = ROutputMut o -> o = Some v) /\
  (forall ops e o,
     In e (fst (run fut_poll (@Gone Fut Output) ops)) -> ev_ret e = ROutputMut o -> o = None).
Proof.
  split; [intros [f|v|]; eexists; split; reflexivity|].
  split; [reflexivity|].
  split.
  { intros s ops e o Hin Hr.
    destruct (run_event_step fut_poll ops s e Hin) as [op [_ Hst]].
    rewrite Hr in Hst; exact (step_output_mut fut_poll op _ _ o Hst). }
  split.
  { intros v pre e o Hnt Hin Hr.
    destruct (run_invariant fut_poll (fun x => x = Done v) pre (Done v)) with (e := e)
      as [Hpre _]; auto.
    - intros op Hop x r y -> Hst.
      destruct (step_done_no_take fut_poll op v (no_take_in pre op Hnt Hop)) as [r' Hr'].
      rewrite Hr' in Hst; inversion Hst; reflexivity.
    - destruct (run_event_step fut_poll pre (Done v) e Hin) as [op [_ Hst]].
      rewrite Hr in Hst; apply step_output_mut in Hst as [-> _].
      rewrite Hpre; reflexivity. }
  intros ops e o Hin Hr.
  destruct (run_invariant fut_poll (fun x => x = Gone) ops Gone) with (e := e)
    as [Hpre _]; auto.
  - intros op _ x r y -> Hst; exact (proj1 (step_gone fut_poll op r y Hst)).
  - destruct (run_event_step fut_poll ops Gone e Hin) as [op [_ Hst]].
    rewrite Hr in Hst; apply step_output_mut in Hst as [-> _].
    rewrite Hpre; reflexivity.
Qed.

(** C9: no call takes a wrapper back to [Future]: a call that leaves the
    state [Future _] was made in state [Future _]; a call made in a
    terminated state ([Done _] or [Gone]) leaves a terminated state; so once
    [is_terminated] holds, it holds after every later call of a run. *)
Lemma terminated_stays_terminated :
  (forall op (s s' : MaybeDone Fut Output) r,
     step fut_poll op s = Returns r s' -> is_terminated s = true -> is_terminated s' = true) /\
  (forall op (s : MaybeDone Fut Output) r f,
     step fut_poll op s = Returns r (Future f) -> exists f0, s = Future f0) /\
  (forall (s : MaybeDone Fut Output) ops e,
     is_terminated s = true -> In e (fst (run fut_poll s ops)) -> is_terminated (ev_post e) = true).
Proof.
  split; [exact (step_is_terminated fut_poll)|].
  split; [exact (step_to_future fut_poll)|].
  intros s ops e Hs Hin.
  refine (proj2 (run_invariant fut_poll (fun x => is_terminated x = true) ops s _ Hs e Hin)).
  intros op _ x r y Hx Hst; exact (step_is_terminated fut_poll op x y r Hst Hx).
Qed.

End MaybeDoneClaims.

(** * Witnesses on the [countdown_poll] future *)

Lemma poll_future_ready_witness :
  countdown_poll 0 tt = (Ready 5, 0) /\
  poll countdown_poll (Future 0) tt = Returns (Ready tt) (@Done nat nat 5).
Proof.
  split; [reflexivity|].
  apply (poll_future_ready countdown_poll 0 0 tt 5); reflexivity.
Defined.

Lemma poll_future_pending_witness :
  countdown_poll 2 tt = (Pending, 1) /\
  poll countdown_poll (Future 2) tt = Returns Pending (@Future nat nat 1).
Proof.
  split; [reflexivity|].
  apply (poll_future_pending countdown_poll 2 1 tt); reflexivity.
Defined.

Lemma take_output_once_witness :
  no_take [OpPoll tt; OpOutputMut; OpIsTerminated] = true /\
  nth_error
    (map ev_ret (fst (run countdown_poll (@Done nat nat 7)
       ([OpPoll tt; OpOutputMut; OpIsTerminated] ++ OpTakeOutput :: [OpTakeOutput]))))
    3
  = Some (RTakeOutput (Some 7)).
Proof.
  split; [reflexivity|].
  apply (proj2 (proj2 (proj2 (proj2 (proj2 (take_output_once countdown_poll)))))
           7 [OpPoll tt; OpOutputMut; OpIsTerminated] [OpTakeOutput]).
  reflexivity.
Defined.

Lemma poll_k_times_witness :
  inner_polls countdown_poll 2 (firstn 3 [tt; tt; tt; tt]) = repeat Pending 2 ++ [Ready 5] /\
  map ev_ret (fst (run countdown_poll (@maybe_done nat nat 2) (map OpPoll [tt; tt; tt; tt])))
  = [RPoll Pending; RPoll Pending; RPoll (Ready tt); RPoll (Ready tt)].
Proof.
  split; [reflexivity|].
  exact (proj1 (proj2 (poll_k_times countdown_poll 2 [tt; tt; tt; tt] 3 5 eq_refl))).
Defined.

Lemma output_mut_spec_witness :
  no_take [OpPoll tt; OpOutputMut] = true /\
  In {| ev_pre := @Done nat nat 7; ev_ret := ROutputMut (Some 7); ev_post := Done 7 |}
     (fst (run countdown_poll (Done 7) [OpPoll tt; OpOutputMut])) /\
  Some 7 = Some 7.
Proof.
  split; [reflexivity|]. split; [simpl; auto|].
  apply (proj1 (proj2 (proj2 (proj2 (output_mut_spec countdown_poll))))
           7 [OpPoll tt; OpOutputMut]
           {| ev_pre := Done 7; ev_ret := ROutputMut (Some 7); ev_post := Done 7 |});
    [reflexivity | simpl; auto | reflexivity].
Defined.

Lemma terminated_stays_terminated_witness :
  is_terminated (@Done nat nat 7) = true /\
  step countdown_poll OpTakeOutput (@Done nat nat 7) = Returns (RTakeOutput (Some 7)) Gone /\
  is_terminated (@Gone nat nat) = true.
Proof.
  split; [reflexivity|]. split; [reflexivity|].
  apply (proj1 (terminated_stays_terminated countdown_poll)
           OpTakeOutput (Done 7) Gone (RTakeOutput (Some 7))); reflexivity.
Defined.

Section MaybeDoneExtras.

Context {Fut Output LocalWaker : Type}.
Variable fut_poll : Fut -> LocalWaker -> Poll Output * Fut.

Lemma step_panics :
  forall op (s : MaybeDone Fut Output) m,
    step fut_poll op s = Panics m ->
    s = Gone /\ m = "MaybeDone polled after value taken"%string /\
    exists lw, op = OpPoll lw.
Proof.
  destruct op; destruct s as [f|v|]; simpl; intros m H;
    try (destruct (fut_poll f lw) as [[]]); inversion H; eauto.
Qed.

Lemma step_into_gone :
  forall op (s : MaybeDone Fut Output) r,
    step fut_poll op s = Returns r Gone -> s <> Gone -> take_some r = true.
Proof.
  destruct op; destruct s as [f|v|]; simpl; intros r H Hs;
    try (destruct (fut_poll f lw) as [[]]); inversion H; subst; auto;
    exfalso; apply Hs; reflexivity.
Qed.

Lemma step_query :
  forall op (s : MaybeDone Fut Output),
    is_query op = true -> exists r, is_query_ret r = true /\ step fut_poll op s = Returns r s.
Proof.
  destruct op; intros s H; try discriminate H; simpl.
  - destruct s; (eexists; split; [|reflexivity]; reflexivity).
  - eexists; split; [|reflexivity]; reflexivity.
Qed.

Lemma step_not_query :
  forall op (s s' : MaybeDone Fut Output) r,
    is_query op = false -> step fut_poll op s = Returns r s' -> is_query_ret r = false.
Proof.
  destruct op; intros s s' r H Hst; try discriminate H; simpl in Hst.
  - destruct (poll fut_poll s lw); inversion Hst; reflexivity.
  - destruct (take_output s); inversion Hst; reflexivity.
Qed.

Lemma run_done_polls_take :
  forall (v : Output) lws,
    run fut_poll (Done v) (map OpPoll lws ++ [OpTakeOutput]) =
    (map (fun _ => {| ev_pre := Done v; ev_ret := RPoll (Ready tt); ev_post := Done v |}) lws
     ++ [{| ev_pre := Done v; ev_ret := RTakeOutput (Some v); ev_post := Gone |}], None).
Proof.
  intros v; induction lws as [|lw lws IH]; simpl; [reflexivity|].
  rewrite IH; reflexivity.
Qed.


(** X2: the documented scenario, for any inner future that is ready with
    [v] on its first poll: [take_output] before polling returns [None],
    polling returns [Ready(())], then [take_output] returns [Some v] once and
    [None] after that, and no call panics. *)
Lemma doc_scenario :
  forall (f f' : Fut) (lw : LocalWaker) (v : Output),
    fut_poll f lw = (Ready v, f') ->
    run fut_poll (maybe_done f) [OpTakeOutput; OpPoll lw; OpTakeOutput; OpTakeOutput] =
    ([{| ev_pre := Future f; ev_ret := RTakeOutput None; ev_post := Future f |};
      {| ev_pre := Future f; ev_ret := RPoll (Ready tt); ev_post := Done v |};
      {| ev_pre := Done v; ev_ret := RTakeOutput (Some v); ev_post := Gone |};
      {| ev_pre := Gone; ev_ret := RTakeOutput None; ev_post := Gone |}], None).
Proof. intros f f' lw v H; unfold maybe_done; simpl; rewrite H; reflexivity. Qed.

(** X3: polling [maybe_done f] along any list of wakers never panics; the
    results repeat the inner future's poll results with the value replaced
    by [()] (up to and including its completion), then [Ready(())] for
    every further poll. *)
Lemma polls_follow_inner :
  forall (f : Fut) (lws : list LocalWaker),
    run fut_poll (maybe_done f) (map OpPoll lws) =
    (fst (run fut_poll (maybe_done f) (map OpPoll lws)), None) /\
    map ev_ret (fst (run fut_poll (@maybe_done Fut Output f) (map OpPoll lws))) =
    map (fun p => RPoll (erase_poll p)) (inner_polls fut_poll f lws) ++
    repeat (RPoll (Ready tt)) (List.length lws - List.length (inner_polls fut_poll f lws)).
Proof.
  intros f lws; revert f; unfold maybe_done.
  induction lws as [|lw rest IH]; intros f; simpl; [split; reflexivity|].
  destruct (fut_poll f lw) as [[v|] f'] eqn:Hp; simpl.
  - rewrite run_done_polls; simpl; rewrite map_map.
    rewrite (map_ext _ (fun _ => RPoll (Ready tt))) by reflexivity.
    rewrite Nat.sub_0_r; split; [reflexivity|].
    rewrite map_const; reflexivity.
  - destruct (IH f') as [Hn Hr].
    destruct (run fut_poll (Future f') (map OpPoll rest)) as [tr er]; simpl in *.
    injection Hn as ->; split; [reflexivity|].
    simpl; rewrite Hr; reflexivity.
Qed.

(** X4: if the inner future completes with [v] within the polls made along
    [lws], then polling [maybe_done f] along [lws] and calling
    [take_output] returns [Some v] from [Done v], leaving [Gone], and no call
    panics. *)
Lemma drive_then_take :
  forall (f : Fut) (lws : list LocalWaker) (v : Output),
    In (Ready v) (inner_polls fut_poll f lws) ->
    exists tr,
      run fut_poll (maybe_done f) (map OpPoll lws ++ [OpTakeOutput]) =
      (tr ++ [{| ev_pre := Done v; ev_ret := RTakeOutput (Some v); ev_post := Gone |}], None).
Proof.
  intros f lws v; revert f; unfold maybe_done.
  induction lws as [|lw rest IH]; intros f Hin; simpl in Hin; [contradiction|].
  simpl; destruct (fut_poll f lw) as [[v'|] f'] eqn:Hp.
  - destruct Hin as [Hv|[]]; injection Hv as ->.
    rewrite run_done_polls_take.
    eexists ({| ev_pre := Future f; ev_ret := RPoll (Ready tt); ev_post := Done v |} :: _).
    reflexivity.
  - destruct Hin as [Hv|Hin]; [discriminate Hv|].
    destruct (IH f' Hin) as [tr Htr]; rewrite Htr.
    exists ({| ev_pre := Future f; ev_ret := RPoll Pending; ev_post := Future f' |} :: tr).
    reflexivity.
Qed.

(** X5: the only panic of any run of calls is
    "MaybeDone polled after value taken", raised by a [poll] call: the call
    right after the completed ones is a [poll]. *)
Lemma run_panic_is_poll_after_take :
  forall (s : MaybeDone Fut Output) ops m,
    snd (run fut_poll s ops) = Some m ->
    m = "MaybeDone polled after value taken"%string /\
    exists lw, nth_error ops (List.length (fst (run fut_poll s ops))) = Some (OpPoll lw).
Proof.
  intros s ops; revert s; induction ops as [|op rest IH]; intros s m H; simpl in H.
  - discriminate H.
  - simpl; destruct (step fut_poll op s) as [r s'|m'] eqn:Hst.
    + destruct (run fut_poll s' rest) as [tr e] eqn:Hrun; simpl in *.
      specialize (IH s' m); rewrite Hrun in IH; exact (IH H).
    + injection H as <-.
      destruct (step_panics op s m' Hst) as [_ [Hm [lw ->]]].
      simpl; split; [exact Hm | exists lw; reflexivity].
Qed.

(** X6: a run that starts in [Future _] or [Done _] and panics has made a
    [take_output] call that returned [Some] before the panic. *)
Lemma run_panic_after_take :
  forall (s : MaybeDone Fut Output) ops m,
    s <> Gone ->
    snd (run fut_poll s ops) = Some m ->
    exists e, In e (fst (run fut_poll s ops)) /\ take_some (ev_ret e) = true.
Proof.
  intros s ops; revert s; induction ops as [|op rest IH]; intros s m Hs H; simpl in H.
  - discriminate H.
  - simpl; destruct (step fut_poll op s) as [r s'|m'] eqn:Hst.
    + destruct (run fut_poll s' rest) as [tr e] eqn:Hrun; simpl in *.
      destruct s' as [f'|v'|].
      * specialize (IH (Future f') m); rewrite Hrun in IH.
        destruct (IH ltac:(discriminate) H) as [e' [Hin Ht]]; eauto.
      * specialize (IH (Done v') m); rewrite Hrun in IH.
        destruct (IH ltac:(discriminate) H) as [e' [Hin Ht]]; eauto.
      * exists {| ev_pre := s; ev_ret := r; ev_post := Gone |}; simpl.
        split; [left; reflexivity|]; exact (step_into_gone op s r Hst Hs).
    + destruct (step_panics op s m' Hst) as [Hg _]; contradiction.
Qed.

(** X7: [output_mut] and [is_terminated] calls do not affect any other
    call: removing them from a run leaves the results of the remaining calls,
    and whether and how the run panics, unchanged. *)
Lemma queries_transparent :
  forall (s : MaybeDone Fut Output) ops,
    map ev_ret (fst (run fut_poll s (filter (fun op => negb (is_query op)) ops))) =
    filter (fun r => negb (is_query_ret r)) (map ev_ret (fst (run fut_poll s ops))) /\
    snd (run fut_poll s (filter (fun op => negb (is_query op)) ops)) =
    snd (run fut_poll s ops).
Proof.
  intros s ops; revert s; induction ops as [|op rest IH]; intros s; [split; reflexivity|].
  simpl; destruct (is_query op) eqn:Hq; simpl.
  - destruct (step_query op s Hq) as [r [Hr Hst]]; rewrite Hst.
    specialize (IH s).
    destruct (run fut_poll s rest) as [tr e] eqn:Hrun; simpl in *.
    destruct r; try discriminate Hr; simpl; exact IH.
  - destruct (step fut_poll op s) as [r s'|m] eqn:Hst; [|split; reflexivity].
    pose proof (step_not_query op s s' r Hq Hst) as Hr.
    specialize (IH s').
    destruct (run fut_poll s' (filter (fun op => negb (is_query op)) rest)) as [tr1 e1].
    destruct (run fut_poll s' rest) as [tr2 e2]; simpl in *.
    destruct IH as [H1 H2]; destruct r; try discriminate Hr; simpl;
      rewrite H1, H2; split; reflexivity.
Qed.

End MaybeDoneExtras.

Lemma doc_scenario_witness :
  countdown_poll 0 tt = (Ready 5, 0) /\
  map ev_ret (fst (run countdown_poll (@maybe_done nat nat 0)
                     [OpTakeOutput; OpPoll tt; OpTakeOutput; OpTakeOutput])) =
  [RTakeOutput None; RPoll (Ready tt); RTakeOutput (Some 5); RTakeOutput None].
Proof.
  split; [reflexivity|].
  rewrite (doc_scenario countdown_poll 0 0 tt 5 eq_refl); reflexivity.
Defined.

Lemma drive_then_take_witness :
  In (Ready 5) (inner_polls countdown_poll 2 [tt; tt; tt; tt]) /\
  exists tr,
    run countdown_poll (@maybe_done nat nat 2) (map OpPoll [tt; tt; tt; tt] ++ [OpTakeOutput]) =
    (tr ++ [{| ev_pre := Done 5; ev_ret := RTakeOutput (Some 5); ev_post := Gone |}], None).
Proof.
  split; [simpl; auto|].
  apply (drive_then_take countdown_poll 2 [tt; tt; tt; tt] 5); simpl; auto.
Defined.

Lemma run_panic_is_poll_after_take_witness :
  snd (run countdown_poll (@Done nat nat 7) [OpTakeOutput; OpIsTerminated; OpPoll tt; OpTakeOutput])
  = Some "MaybeDone polled after value taken"%string /\
  exists lw,
    nth_error [OpTakeOutput; OpIsTerminated; OpPoll tt; OpTakeOutput]
      (List.length (fst (run countdown_poll (@Done nat nat 7)
                           [OpTakeOutput; OpIsTerminated; OpPoll tt; OpTakeOutput])))
    = Some (OpPoll lw).
Proof.
  split; [reflexivity|].
  exact (proj2 (run_panic_is_poll_after_take countdown_poll (Done 7)
                  [OpTakeOutput; OpIsTerminated; OpPoll tt; OpTakeOutput]
                  "MaybeDone polled after value taken"%string eq_refl)).
Defined.

Lemma run_panic_after_take_witness :
  (@Done nat nat 7) <> Gone /\
  snd (run countdown_poll (@Done nat nat 7) [OpPoll tt; OpTakeOutput; OpPoll tt])
  = Some "MaybeDone polled after value taken"%string /\
  exists e, In e (fst (run countdown_poll (@Done nat nat 7) [OpPoll tt; OpTakeOutput; OpPoll tt]))
            /\ take_some (ev_ret e) = true.
Proof.
  split; [discriminate|]. split; [reflexivity|].
  apply (run_panic_after_take countdown_poll (Done 7) [OpPoll tt; OpTakeOutput; OpPoll tt]
           "MaybeDone polled after value taken"%string); [discriminate | reflexivity].
Defined.
